(** * Profiles UI: the profile store and the edit-profile form

    A shallow embedding of the two stateful pieces of the profiles front end:

    - [ProfilesStore] (src/ui/src/bundle.ts, lines 79-145): the MobX store
      that caches the profiles obtained from the [ProfilesService];
    - [EditProfile] (src/ui/src/elements/edit-profile.ts): the part of the
      form element that assembles the [Profile] of the save-profile event.

    Conventions of the embedding.

    - A JavaScript object used as a dictionary ([Dictionary<Profile>],
      [Record<string, string>]) is a [gmap string _]: own string keys, one
      value per key, [obj[k] = v] is [<[k:=v]>], [obj[k]] is [!! k] with
      [None] for [undefined]; enumeration order is not part of the model.
      The keys of the store's dictionary are agent public keys, base64
      hashes.  The records of the edit form are filled under keys read from
      element ids and read under configured names: there the assignment
      under [__proto__], which makes no own entry, and the reading of the
      members inherited from [Object.prototype] are written out.
    - An [async] method is a computation over the state of the system (the
      world behind the service, and the store) that settles either fulfilled
      with a value or rejected with a failure.  A rejected [await] aborts the
      rest of the method; the state reached so far stays as it is. *)

From stdpp Require Import base option list strings gmap fin_maps.
From Stdlib Require Import Ascii String.

Local Open Scope string_scope.

(** ** Data model (types.ts) *)

(** [Profile]: a nickname and an open-ended record of named text fields.  The
    [type: "Profile"] tag of the interface is a one-value literal type and
    carries no information. *)
Record Profile := {
  nickname : string;
  fields : gmap string string;
}.

(** [AgentProfile]: an agent's public key (base64) with that agent's profile. *)
Record AgentProfile := {
  agent_pub_key : string;
  profile : Profile;
}.

(** A hash as the conductor hands it out: a [Uint8Array]. *)
Definition Hash := list Byte.byte.

(** [CellId = [DnaHash, AgentPubKey]]. *)
Definition CellId := (Hash * Hash)%type.

(** ** Promises *)

(** How a promise settles. *)
Inductive settled (E A : Type) :=
  | Fulfilled (a : A)
  | Rejected (e : E).
Arguments Fulfilled {E A} a.
Arguments Rejected {E A} e.

(** ** The service (profiles.service.ts, an external collaborator)

    One asynchronous call per operation.  [W] is the state of everything
    behind the service (conductor, zome, DHT): a call may change it, and
    settles fulfilled or rejected with a [Failure]. *)
Module ProfilesService.

Record t {W Failure : Type} := {
  cellId : CellId;
  getAllProfiles : W -> settled Failure (list AgentProfile) * W;
  getMyProfile : W -> settled Failure AgentProfile * W;
  getAgentProfile : string -> W -> settled Failure (option AgentProfile) * W;
  searchProfiles : string -> W -> settled Failure (list AgentProfile) * W;
  createProfile : Profile -> W -> settled Failure unit * W;
}.
Arguments t : clear implicits.

End ProfilesService.

(** ** The store (bundle.ts:79-145) *)
Module ProfilesStore.

(** The store's own state: the observable [profiles] dictionary
    (bundle.ts:80-81).  The service it was constructed with never changes
    and is a parameter of the methods below. *)
Record t := {
  profiles : gmap string Profile;
}.

(** [public profiles: Dictionary<Profile> = {}] *)
Definition new : t := {| profiles := ∅ |}.

(** The system an [async] method runs in. *)
Record System {W : Type} := {
  world : W;
  store : t;
}.
Arguments System : clear implicits.

(** An asynchronous computation: from a system state to how it settles and
    the state it leaves. *)
Definition Async (W Failure A : Type) : Type :=
  System W -> settled Failure A * System W.

Section Methods.

Context {W Failure : Type}.

(** [serializeHash] of @holochain-open-dev/common: hash to base64 text. *)
Variable serializeHash : Hash -> string.

(** [protected profilesService: ProfilesService] *)
Variable profilesService : ProfilesService.t W Failure.

Definition ret {A} (a : A) : Async W Failure A := fun σ => (Fulfilled a, σ).

Definition bind {A B} (m : Async W Failure A) (k : A -> Async W Failure B)
  : Async W Failure B :=
  fun σ =>
    match m σ with
    | (Fulfilled a, σ') => k a σ'
    | (Rejected e, σ') => (Rejected e, σ')
    end.

#[local] Instance Async_ret : MRet (Async W Failure) := @ret.
#[local] Instance Async_bind : MBind (Async W Failure) :=
  fun A B k m => bind m k.

(** [await this.profilesService.call(...)]: the call acts on the world only. *)
Definition await {A} (call : W -> settled Failure A * W) : Async W Failure A :=
  fun σ =>
    let '(r, w') := call (world σ) in
    (r, {| world := w'; store := store σ |}).

(** [this.profiles[key] = value] *)
Definition set_profile (key : string) (value : Profile) : Async W Failure unit :=
  fun σ =>
    (Fulfilled tt,
     {| world := world σ;
        store := {| profiles := <[key := value]> (profiles (store σ)) |} |}).

(** [for (const x of xs) body] *)
Fixpoint for_of {A} (xs : list A) (body : A -> Async W Failure unit)
  : Async W Failure unit :=
  match xs with
  | [] => ret tt
  | x :: xs' => body x;; for_of xs' body
  end.

(** MobX's [runInAction(fn)] runs [fn] synchronously, batching the
    notifications to observers; it does not change what [fn] does. *)
Definition runInAction {A} (fn : Async W Failure A) : Async W Failure A := fn.

(** [get myAgentPubKey()] (bundle.ts:87-89) *)
Definition myAgentPubKey : string :=
  serializeHash (snd (ProfilesService.cellId profilesService)).

(** [get myProfile()] (bundle.ts:91-94) *)
Definition myProfile (s : t) : option Profile :=
  profiles s !! myAgentPubKey.

(** [get knownProfiles()] (bundle.ts:96-102), up to enumeration order. *)
Definition knownProfiles (s : t) : list AgentProfile :=
  (fun '(agent_pub_key, profile) =>
     {| agent_pub_key := agent_pub_key; profile := profile |})
    <$> map_to_list (profiles s).

(** [fetchAllProfiles()] (bundle.ts:104-113) *)
Definition fetchAllProfiles : Async W Failure unit :=
  allProfiles ← await (ProfilesService.getAllProfiles profilesService);
  runInAction
    (for_of allProfiles (fun agentProfile =>
       set_profile (agent_pub_key agentProfile) (profile agentProfile))).

(** [fetchMyProfile()] (bundle.ts:115-122) *)
Definition fetchMyProfile : Async W Failure unit :=
  myProfile ← await (ProfilesService.getMyProfile profilesService);
  runInAction (set_profile myAgentPubKey (profile myProfile)).

(** [searchProfiles(nicknamePrefix)] (bundle.ts:124-135) *)
Definition searchProfiles (nicknamePrefix : string) : Async W Failure unit :=
  searchedProfiles ←
    await (ProfilesService.searchProfiles profilesService nicknamePrefix);
  runInAction
    (for_of searchedProfiles
       (fun '{| agent_pub_key := agent_pub_key; profile := profile |} =>
          set_profile agent_pub_key profile)).

(** [createProfile(profile)] (bundle.ts:137-144) *)
Definition createProfile (profile : Profile) : Async W Failure unit :=
  await (ProfilesService.createProfile profilesService profile);;
  runInAction (set_profile myAgentPubKey profile).

(** *** The store's operations as data, and sessions of them *)

(** The four mutating methods of the class. *)
Inductive operation :=
  | FetchAllProfiles
  | FetchMyProfile
  | SearchProfiles (nicknamePrefix : string)
  | CreateProfile (profile : Profile).

Definition invoke (o : operation) : Async W Failure unit :=
  match o with
  | FetchAllProfiles => fetchAllProfiles
  | FetchMyProfile => fetchMyProfile
  | SearchProfiles nicknamePrefix => searchProfiles nicknamePrefix
  | CreateProfile profile => createProfile profile
  end.

(** What the service answers to the one call a method awaits. *)
Inductive reply :=
  | Profiles (found : list AgentProfile)
  | OwnProfile (mine : AgentProfile)
  | Created.

Definition settled_map {A B} (f : A -> B) (r : settled Failure A)
  : settled Failure B :=
  match r with
  | Fulfilled a => Fulfilled (f a)
  | Rejected e => Rejected e
  end.

(** The service call behind each method (lines 106, 117, 126, 139). *)
Definition service_call (o : operation) (w : W) : settled Failure reply * W :=
  match o with
  | FetchAllProfiles =>
      let '(r, w') := ProfilesService.getAllProfiles profilesService w in
      (settled_map Profiles r, w')
  | FetchMyProfile =>
      let '(r, w') := ProfilesService.getMyProfile profilesService w in
      (settled_map OwnProfile r, w')
  | SearchProfiles nicknamePrefix =>
      let '(r, w') :=
        ProfilesService.searchProfiles profilesService nicknamePrefix w in
      (settled_map Profiles r, w')
  | CreateProfile profile =>
      let '(r, w') := ProfilesService.createProfile profilesService profile w in
      (settled_map (fun _ => Created) r, w')
  end.

(** A caller that invokes one method after the other, each one awaited to
    the end, and goes on whether it fulfilled or rejected. *)
Fixpoint session {O} (run : O -> Async W Failure unit) (os : list O)
    (σ : System W) : System W :=
  match os with
  | [] => σ
  | o :: os' => session run os' (snd (run o σ))
  end.

(** The answers of the service along such a session. *)
Fixpoint transcript (os : list operation) (w : W)
  : list (settled Failure reply) :=
  match os with
  | [] => []
  | o :: os' =>
      let '(r, w') := service_call o w in r :: transcript os' w'
  end.

Definition is_listing (o : operation) : bool :=
  match o with
  | FetchAllProfiles | SearchProfiles _ => true
  | FetchMyProfile | CreateProfile _ => false
  end.

Definition fulfilled {A} (r : settled Failure A) : bool :=
  match r with Fulfilled _ => true | Rejected _ => false end.

(** The entries a service answer carries for the listing calls. *)
Definition entries_of (r : settled Failure reply) : list AgentProfile :=
  match r with
  | Fulfilled (Profiles found) => found
  | _ => []
  end.

Definition returned_entries (rs : list (settled Failure reply))
  : list AgentProfile :=
  List.concat (entries_of <$> rs).

(** *** The words of the specification, for comparison *)

(** The profile received last for [agentId] among [entries]. *)
Definition last_received (agentId : string) (entries : list AgentProfile)
  : option Profile :=
  profile <$>
    last (filter (fun e => agent_pub_key e = agentId) entries).

(** The union of [entries] as a mapping, the last one received for an agent
    winning. *)
Definition union_last_wins (entries : list AgentProfile)
  : gmap string Profile :=
  list_to_map
    (reverse ((fun e => (agent_pub_key e, profile e)) <$> entries)).

(** "Overwrites [cache[agentId] = profile]", for one entry and for a
    sequence of entries in the order received. *)
Definition overwrite (cache : gmap string Profile) (e : AgentProfile)
  : gmap string Profile :=
  <[agent_pub_key e := profile e]> cache.

Definition overwrite_all (cache : gmap string Profile)
    (entries : list AgentProfile) : gmap string Profile :=
  foldl overwrite cache entries.

(** [cache] overwritten by [updates]. *)
Definition overwritten_by (cache updates : gmap string Profile)
  : gmap string Profile :=
  updates ∪ cache.

(** *** Methods of the store that are not in bundle.ts *)

(** Modelled from the spec: [fetchAgentProfile(agentId)], which the avatar
    element calls ([AgentAvatar.firstUpdated]) and this version of the
    class does not define.  It "calls [service.getAgentProfile(agentId)];
    writes [cache[agentId] = profile] on success"; an agent without a
    profile is "the service returning an absent/empty result, which the
    store simply does not insert into the cache". *)
Definition fetchAgentProfile (agentId : string) : Async W Failure unit :=
  found ← await (ProfilesService.getAgentProfile profilesService agentId);
  match found with
  | Some agentProfile => set_profile agentId (profile agentProfile)
  | None => ret tt
  end.

(** Modelled from the spec: the read view [profileOf(agentId)], which the
    avatar element subscribes to ([AgentAvatar._profile]) and this version
    of the class does not define: "[cache[agentId]] or absent". *)
Definition profileOf (s : t) (agentId : string) : option Profile :=
  profiles s !! agentId.

(** The operations of the store with [fetchAgentProfile] among them. *)
Inductive request :=
  | Method (o : operation)
  | FetchAgentProfile (agentId : string).

Definition serve (q : request) : Async W Failure unit :=
  match q with
  | Method o => invoke o
  | FetchAgentProfile agentId => fetchAgentProfile agentId
  end.

(** The agent ids for which a request obtains a profile when its service
    call fulfils: those of the entries listed; the store's own id for
    [fetchMyProfile] and [createProfile], which are about the caller's own
    identity; the id asked for, when the agent has a profile. *)
Definition obtained (q : request) (w : W) : list string * W :=
  match q with
  | Method o =>
      let '(r, w') := service_call o w in
      (match r with
       | Fulfilled (Profiles found) => agent_pub_key <$> found
       | Fulfilled (OwnProfile _) | Fulfilled Created => [myAgentPubKey]
       | Rejected _ => []
       end, w')
  | FetchAgentProfile agentId =>
      let '(r, w') :=
        ProfilesService.getAgentProfile profilesService agentId w in
      (match r with
       | Fulfilled (Some _) => [agentId]
       | _ => []
       end, w')
  end.

Fixpoint obtained_along (qs : list request) (w : W) : list string :=
  match qs with
  | [] => []
  | q :: qs' =>
      let '(ids, w') := obtained q w in ids ++ obtained_along qs' w'
  end.

End Methods.

End ProfilesStore.

(** ** The configuration the elements read ([this._store.config]) *)
Module Config.

(** [FieldConfig]: a custom profile field the application asks for. *)
Record FieldConfig := {
  name : string;
  label : string;
  required : bool;
}.

Record t := {
  avatarMode : string;
  additionalFields : list FieldConfig;
  minNicknameLength : nat;
}.

End Config.

(** ** The edit-profile form (elements/edit-profile.ts) *)
Module EditProfile.

(** An [mwc-textfield] of the form, as far as the element reads it. *)
Record TextField := {
  id : string;
  value : string;
}.

(** The state of the element that [fireSaveProfile] reads: the
    [mwc-textfield]s of its shadow root in document order, and the avatar
    picked so far ([_avatar: string | undefined]). *)
Record t := {
  textfields : list TextField;
  _avatar : option string;
}.

(** The save-profile [CustomEvent] with [detail: { profile }]. *)
Record CustomEvent := {
  type : string;
  detail_profile : Profile;
  bubbles : bool;
  composed : bool;
}.

(** [@query("#nickname-field") _nicknameField]: the first match, or [null].
    The template gives this id to an [mwc-textfield] and to nothing else. *)
Definition _nicknameField (e : t) : option TextField :=
  List.find (fun f => String.eqb (id f) "nickname-field") (textfields e).

(** [String.prototype.split] with a one-character separator. *)
Fixpoint split (sep : ascii) (s : string) : list string :=
  match s with
  | EmptyString => [EmptyString]
  | String c s' =>
      if Ascii.eqb c sep then EmptyString :: split sep s'
      else match split sep s' with
           | piece :: pieces => String c piece :: pieces
           | [] => [String c EmptyString]
           end
  end.

(** [textfieldToFieldId(field)] (lines 173-175): [field.id.split("-")[2]],
    which is [undefined] when the id has fewer than three pieces. *)
Definition textfieldToFieldId (field : TextField) : option string :=
  split "-" (id field) !! 2%nat.

(** A value used as a property name: [undefined] names the property
    ["undefined"]. *)
Definition property_key (k : option string) : string :=
  match k with
  | Some k => k
  | None => "undefined"
  end.

(** [record[key] = value] on a record created as [{}], of which only the
    own entries are read afterwards ([Object.entries], [Object.values]).
    The assignment makes or replaces the own entry under [key], except
    under ["__proto__"]: there it goes to the setter of [Object.prototype],
    which replaces the prototype of the record when [value] is an object
    and does nothing when it is a string; either way no own entry is made. *)
Definition assign {A} (key : string) (value : A) (record : gmap string A)
  : gmap string A :=
  if String.eqb key "__proto__" then record else <[key := value]> record.

(** [getAdditionalTextFields()] (lines 188-199) *)
Definition getAdditionalTextFields (e : t) : gmap string TextField :=
  let textfields :=
    List.filter (fun f => negb (String.eqb (id f) "nickname-field"))
      (textfields e) in
  foldl
    (fun fields field =>
       let id := textfieldToFieldId field in
       assign (property_key id) field fields)
    ∅ textfields.

(** [getAdditionalFieldsValues()] (lines 177-186) *)
Definition getAdditionalFieldsValues (e : t) : gmap string string :=
  let textfields := getAdditionalTextFields e in
  foldl
    (fun values '(id, textfield) => assign id (value textfield) values)
    ∅ (map_to_list textfields).

(** The truthiness of a [string | undefined]: [undefined] and the empty
    string are falsy. *)
Definition truthy (s : option string) : bool :=
  match s with
  | Some s => negb (String.eqb s EmptyString)
  | None => false
  end.

(** [fireSaveProfile()] (lines 201-223): the event dispatched, or [None]
    when reading [this._nicknameField.value] throws because the query
    found no element. *)
Definition fireSaveProfile (e : t) : option CustomEvent :=
  match _nicknameField e with
  | None => None
  | Some nicknameField =>
      let nickname := value nicknameField in
      let fields := getAdditionalFieldsValues e in
      let fields :=
        match _avatar e with
        | Some avatar =>
            if truthy (Some avatar) then <["avatar" := avatar]> fields
            else fields
        | None => fields
        end in
      let profile := {| fields := fields; nickname := nickname |} in
      Some {| type := "save-profile";
              detail_profile := profile;
              bubbles := true;
              composed := true |}
  end.


(** The form as [render] lays it out: the nickname field, then one field
    per [additionalFields] entry of the configuration, with the id
    [profile-field-<name>] ([renderField], lines 234-248). *)
Definition rendered (nickname : string) (additional : list (string * string))
    (avatar : option string) : t :=
  {| textfields :=
       {| id := "nickname-field"; value := nickname |}
       :: ((fun '(name, text) =>
              {| id := "profile-field-" ++ name; value := text |})
             <$> additional);
     _avatar := avatar |}.

(** *** The rest of the element *)

(** [a || ""] for [a: string | undefined]. *)
Definition or_empty (a : option string) : string :=
  match a with
  | Some s => if truthy (Some s) then s else EmptyString
  | None => EmptyString
  end.

(** The members every plain object inherits from [Object.prototype]
    (ECMAScript, with its annex B): reading one of these names from a
    record that has no own entry of that name gives the member, a function
    or an object, and not [undefined]. *)
Definition Object_prototype_members : list string :=
  [ "constructor"; "hasOwnProperty"; "isPrototypeOf"; "propertyIsEnumerable";
    "toLocaleString"; "toString"; "valueOf"; "__proto__";
    "__defineGetter__"; "__defineSetter__";
    "__lookupGetter__"; "__lookupSetter__" ].

Section Rendering.

(** What an [mwc-textfield] answers as its [value] after [.value] was bound
    to the member of [Object.prototype] of the given name: it is not a text
    of the profile, and the component decides it, not this element. *)
Variable shown : string -> string.

(** [this.profile?.fields[name] || ""], as the text field then holds it:
    the own entry of the profile when it has one (the empty text for an
    empty one), else what the inherited member shows as when [name] is one,
    else the empty text. *)
Definition bound_text (profile : option Profile) (name : string) : string :=
  match profile with
  | None => EmptyString
  | Some p =>
      match fields p !! name with
      | Some text => or_empty (Some text)
      | None =>
          if bool_decide (name ∈ Object_prototype_members) then shown name
          else EmptyString
      end
  end.

(** [renderField(fieldConfig)] (lines 234-248): the text field laid out for
    one configured field, with the id and the value it is given. *)
Definition renderField (profile : option Profile)
    (fieldConfig : Config.FieldConfig) : TextField :=
  {| id := "profile-field-" ++ Config.name fieldConfig;
     value := bound_text profile (Config.name fieldConfig) |}.

(** [render()] (lines 250-312): the [mwc-textfield]s of the template, in
    document order. *)
Definition render (profile : option Profile) (config : Config.t)
  : list TextField :=
  {| id := "nickname-field"; value := or_empty (nickname <$> profile) |}
  :: (renderField profile <$> Config.additionalFields config).

(** [firstUpdated()], line 77: [this._avatar = this.profile?.fields["avatar"]];
    ["avatar"] is no member of [Object.prototype]. *)
Definition firstUpdated_avatar (profile : option Profile) : option string :=
  p ← profile; fields p !! "avatar".

(** The element once rendered and first updated, before any input. *)
Definition mounted (profile : option Profile) (config : Config.t) : t :=
  {| textfields := render profile config;
     _avatar := firstUpdated_avatar profile |}.

End Rendering.






(** A string without the character ["-"]. *)
Definition hyphen_free (s : string) : bool :=
  forallb (fun c => negb (Ascii.eqb c "-")) (list_ascii_of_string s).

(** *** Words to state what is saved *)



End EditProfile.

(** ** A small in-memory service, to run the store on *)
Module Demo.

(** The world is the directory of profiles the backend holds. *)
Definition World := list AgentProfile.
Definition Failure := string.

Definition serializeHash (h : Hash) : string :=
  "u" ++ string_of_list_ascii (ascii_of_byte <$> h).

Definition me : Hash := [Byte.x41; Byte.x6c; Byte.x69].

Definition starts_with (prefix s : string) : bool := String.prefix prefix s.

Definition profilesService : ProfilesService.t World Failure :=
  {| ProfilesService.cellId := ([Byte.x44], me);
     ProfilesService.getAllProfiles := fun w => (Fulfilled w, w);
     ProfilesService.getMyProfile := fun w =>
       match List.find (fun e => String.eqb (agent_pub_key e) (serializeHash me)) w with
       | Some mine => (Fulfilled mine, w)
       | None => (Rejected "no profile yet", w)
       end;
     ProfilesService.getAgentProfile := fun agentId w =>
       (Fulfilled (List.find (fun e => String.eqb (agent_pub_key e) agentId) w), w);
     ProfilesService.searchProfiles := fun nicknamePrefix w =>
       (Fulfilled
          (List.filter (fun e => starts_with nicknamePrefix (nickname (profile e))) w),
        w);
     ProfilesService.createProfile := fun p w =>
       if String.eqb (nickname p) EmptyString then (Rejected "nickname is empty", w)
       else (Fulfilled tt,
             (w ++ [{| agent_pub_key := serializeHash me; profile := p |}])%list) |}.

Definition alice : Profile := {| nickname := "Alice"; fields := ∅ |}.
Definition bob : Profile := {| nickname := "Bob"; fields := ∅ |}.
Definition carol : Profile :=
  {| nickname := "Carol"; fields := {[ "avatar" := "data:image/png;base64,AAAA" ]} |}.

Definition nameless : Profile := {| nickname := EmptyString; fields := ∅ |}.

Definition directory : World :=
  [ {| agent_pub_key := "uA"; profile := alice |};
    {| agent_pub_key := "uB"; profile := bob |};
    {| agent_pub_key := "uA"; profile := carol |} ].

Definition start (w : World) (cache : gmap string Profile)
  : ProfilesStore.System World :=
  {| ProfilesStore.world := w;
     ProfilesStore.store := {| ProfilesStore.profiles := cache |} |}.

(** A service whose search runs on an index kept apart from the directory. *)
Definition indexed : ProfilesService.t (World * World) Failure :=
  {| ProfilesService.cellId := ([Byte.x44], me);
     ProfilesService.getAllProfiles := fun w => (Fulfilled (fst w), w);
     ProfilesService.getMyProfile := fun w => (Rejected "no profile yet", w);
     ProfilesService.getAgentProfile := fun agentId w => (Fulfilled None, w);
     ProfilesService.searchProfiles := fun nicknamePrefix w =>
       (Fulfilled
          (List.filter
             (fun e => starts_with nicknamePrefix (nickname (profile e)))
             (snd w)),
        w);
     ProfilesService.createProfile := fun p w =>
       (Rejected "read only", w) |}.

(** A configuration asking for a location and a bio. *)
Definition config : Config.t :=
  {| Config.avatarMode := "avatar-required";
     Config.additionalFields :=
       [ {| Config.name := "location"; Config.label := "Location";
            Config.required := true |};
         {| Config.name := "bio"; Config.label := "Bio";
            Config.required := false |} ];
     Config.minNicknameLength := 3 |}.

Definition dana : Profile :=
  {| nickname := "Dana";
     fields :=
       {[ "location" := "Nairobi"; "bio" := "Gardener";
          "avatar" := "data:image/png;base64,AAAA" ]} |}.

Definition two_agents : World :=
  [ {| agent_pub_key := "uA"; profile := alice |};
    {| agent_pub_key := "uB"; profile := bob |} ].

(** The directory knows Alice, the search index knows Bob. *)
Definition split_world : World * World :=
  ([ {| agent_pub_key := "uA"; profile := alice |} ],
   [ {| agent_pub_key := "uB"; profile := bob |} ]).






(** A stand-in for what a text field shows for a member of
    [Object.prototype]. *)
Definition shown (member : string) : string := "function " ++ member.

End Demo.

(** * Properties of the store *)
Module StoreSpec.
Import ProfilesStore.
Local Open Scope list_scope.

Section Proofs.

Context {W Failure : Type}.
Variable serializeHash : Hash -> string.
Variable svc : ProfilesService.t W Failure.

Abbreviation me := (myAgentPubKey serializeHash svc).
Abbreviation Sys := (System W).

Implicit Types (σ : Sys) (w : W) (cache : gmap string Profile).
Implicit Types (e : AgentProfile) (entries found : list AgentProfile).
Implicit Types (agentId : string) (p : Profile).

(** ** The mapping a sequence of overwrites builds *)

Lemma overwrite_all_app cache entries1 entries2 :
  overwrite_all cache (entries1 ++ entries2)
  = overwrite_all (overwrite_all cache entries1) entries2.
Proof. apply foldl_app. Qed.

Lemma overwrite_all_snoc cache entries e :
  overwrite_all cache (entries ++ [e])
  = <[agent_pub_key e := profile e]> (overwrite_all cache entries).
Proof. by rewrite overwrite_all_app. Qed.

Lemma overwrite_all_untouched cache entries agentId :
  agentId ∉ agent_pub_key <$> entries ->
  overwrite_all cache entries !! agentId = cache !! agentId.
Proof.
  revert cache. induction entries as [|e entries IH]; intros cache Hnot.
  - done.
  - cbn in Hnot. apply not_elem_of_cons in Hnot as [Hne Hnot].
    cbn. rewrite IH by done. unfold overwrite.
    by rewrite lookup_insert_ne.
Qed.

Lemma overwrite_all_dom cache entries agentId :
  is_Some (cache !! agentId) ->
  is_Some (overwrite_all cache entries !! agentId).
Proof.
  revert cache. induction entries as [|e entries IH]; intros cache Hin.
  - done.
  - cbn. apply IH. unfold overwrite.
    destruct (decide (agent_pub_key e = agentId)) as [->|Hne].
    + rewrite lookup_insert_eq. eauto.
    + by rewrite lookup_insert_ne.
Qed.

Lemma union_last_wins_snoc entries e :
  union_last_wins (entries ++ [e])
  = <[agent_pub_key e := profile e]> (union_last_wins entries).
Proof.
  unfold union_last_wins. by rewrite fmap_app, reverse_app.
Qed.

Lemma overwrite_all_union cache entries :
  overwrite_all cache entries
  = overwritten_by cache (union_last_wins entries).
Proof.
  unfold overwritten_by.
  induction entries as [|e entries IH] using rev_ind.
  - cbn. unfold union_last_wins. cbn. by rewrite (left_id_L ∅ (∪)).
  - rewrite overwrite_all_snoc, union_last_wins_snoc, IH.
    by rewrite insert_union_l.
Qed.

Lemma last_received_snoc agentId entries e :
  last_received agentId (entries ++ [e])
  = if decide (agent_pub_key e = agentId) then Some (profile e)
    else last_received agentId entries.
Proof.
  unfold last_received. rewrite filter_app, filter_cons, filter_nil.
  destruct (decide (agent_pub_key e = agentId)) as [Heq|Hne].
  - by rewrite last_snoc.
  - by rewrite (right_id_L [] (++)).
Qed.

Lemma union_last_wins_lookup entries agentId :
  union_last_wins entries !! agentId = last_received agentId entries.
Proof.
  induction entries as [|e entries IH] using rev_ind.
  - done.
  - rewrite union_last_wins_snoc, last_received_snoc, lookup_insert.
    by destruct (decide (agent_pub_key e = agentId)).
Qed.

Lemma overwritten_by_lookup cache entries agentId :
  overwritten_by cache (union_last_wins entries) !! agentId
  = match last_received agentId entries with
    | Some p => Some p
    | None => cache !! agentId
    end.
Proof.
  unfold overwritten_by.
  rewrite lookup_union, union_last_wins_lookup.
  destruct (last_received agentId entries), (cache !! agentId); done.
Qed.

(** ** What each method does, by how its service call settles *)

Lemma system_eta σ :
  {| world := world σ; store := {| profiles := profiles (store σ) |} |} = σ.
Proof. by destruct σ as [w [cache]]. Qed.

Lemma for_of_overwrites (body : AgentProfile -> Async W Failure unit)
    entries σ :
  (forall e σ', body e σ' = set_profile (agent_pub_key e) (profile e) σ') ->
  for_of entries body σ
  = (Fulfilled tt,
     {| world := world σ;
        store := {| profiles := overwrite_all (profiles (store σ)) entries |} |}).
Proof.
  intros Hbody. revert σ.
  induction entries as [|e entries IH]; intros σ; cbn.
  - unfold ret. by rewrite system_eta.
  - unfold mbind, Async_bind, bind. rewrite Hbody. cbn. by rewrite IH.
Qed.

Lemma fetchAllProfiles_fulfilled σ found w' :
  ProfilesService.getAllProfiles svc (world σ) = (Fulfilled found, w') ->
  fetchAllProfiles svc σ
  = (Fulfilled tt,
     {| world := w';
        store := {| profiles := overwrite_all (profiles (store σ)) found |} |}).
Proof.
  intros Hcall. unfold fetchAllProfiles, mbind, Async_bind, bind, await.
  rewrite Hcall. unfold runInAction. by rewrite for_of_overwrites.
Qed.

Lemma searchProfiles_fulfilled nicknamePrefix σ found w' :
  ProfilesService.searchProfiles svc nicknamePrefix (world σ)
  = (Fulfilled found, w') ->
  searchProfiles svc nicknamePrefix σ
  = (Fulfilled tt,
     {| world := w';
        store := {| profiles := overwrite_all (profiles (store σ)) found |} |}).
Proof.
  intros Hcall. unfold searchProfiles, mbind, Async_bind, bind, await.
  rewrite Hcall. unfold runInAction.
  rewrite for_of_overwrites; [done|]. by intros [k p] σ'.
Qed.

Lemma fetchMyProfile_fulfilled σ mine w' :
  ProfilesService.getMyProfile svc (world σ) = (Fulfilled mine, w') ->
  fetchMyProfile serializeHash svc σ
  = (Fulfilled tt,
     {| world := w';
        store := {| profiles := <[me := profile mine]> (profiles (store σ)) |} |}).
Proof.
  intros Hcall. unfold fetchMyProfile, mbind, Async_bind, bind, await.
  by rewrite Hcall.
Qed.

Lemma createProfile_fulfilled p σ w' :
  ProfilesService.createProfile svc p (world σ) = (Fulfilled tt, w') ->
  createProfile serializeHash svc p σ
  = (Fulfilled tt,
     {| world := w';
        store := {| profiles := <[me := p]> (profiles (store σ)) |} |}).
Proof.
  intros Hcall. unfold createProfile, mbind, Async_bind, bind, await.
  by rewrite Hcall.
Qed.

(** The cache a method leaves when the service answers [r]. *)
Lemma invoke_fulfilled o σ r w' :
  service_call svc o (world σ) = (Fulfilled r, w') ->
  exists cache',
    invoke serializeHash svc o σ
    = (Fulfilled tt, {| world := w'; store := {| profiles := cache' |} |})
    /\ cache' =
       match o, r with
       | (FetchAllProfiles | SearchProfiles _), Profiles found =>
           overwrite_all (profiles (store σ)) found
       | FetchMyProfile, OwnProfile mine =>
           <[me := profile mine]> (profiles (store σ))
       | CreateProfile p, Created => <[me := p]> (profiles (store σ))
       | _, _ => profiles (store σ)
       end.
Proof.
  destruct o as [| |nicknamePrefix|p]; cbn.
  - destruct (ProfilesService.getAllProfiles svc (world σ))
      as [[found|err] w''] eqn:Hcall; intros [= <- <-].
    eexists. split; [by apply fetchAllProfiles_fulfilled|done].
  - destruct (ProfilesService.getMyProfile svc (world σ))
      as [[mine|err] w''] eqn:Hcall; intros [= <- <-].
    eexists. split; [by apply fetchMyProfile_fulfilled|done].
  - destruct (ProfilesService.searchProfiles svc nicknamePrefix (world σ))
      as [[found|err] w''] eqn:Hcall; intros [= <- <-].
    eexists. split; [by apply searchProfiles_fulfilled|done].
  - destruct (ProfilesService.createProfile svc p (world σ))
      as [[[]|err] w''] eqn:Hcall; intros [= <- <-].
    eexists. split; [by apply createProfile_fulfilled|done].
Qed.

Lemma invoke_rejected o σ err w' :
  service_call svc o (world σ) = (Rejected err, w') ->
  invoke serializeHash svc o σ
  = (Rejected err, {| world := w'; store := store σ |}).
Proof.
  destruct o as [| |nicknamePrefix|p]; cbn;
    unfold fetchAllProfiles, fetchMyProfile, searchProfiles, createProfile,
      mbind, Async_bind, bind, await.
  - destruct (ProfilesService.getAllProfiles svc (world σ))
      as [[found|err'] w'']; by intros [= <- <-].
  - destruct (ProfilesService.getMyProfile svc (world σ))
      as [[mine|err'] w'']; by intros [= <- <-].
  - destruct (ProfilesService.searchProfiles svc nicknamePrefix (world σ))
      as [[found|err'] w'']; by intros [= <- <-].
  - destruct (ProfilesService.createProfile svc p (world σ))
      as [[[]|err'] w'']; by intros [= <- <-].
Qed.

(** Every method leaves the entries it does not name as they were, and
    removes none. *)
Lemma invoke_keeps_entries o σ agentId :
  is_Some (profiles (store σ) !! agentId) ->
  is_Some (profiles (store (snd (invoke serializeHash svc o σ))) !! agentId).
Proof.
  intros Hin.
  destruct (service_call svc o (world σ)) as [[r|err] w'] eqn:Hcall.
  - destruct (invoke_fulfilled _ _ _ _ Hcall) as (cache' & -> & ->). cbn.
    destruct o, r; try done; try (by apply overwrite_all_dom).
    + destruct (decide (me = agentId)) as [<-|Hne].
      * rewrite lookup_insert_eq; eauto.
      * by rewrite lookup_insert_ne.
    + destruct (decide (me = agentId)) as [<-|Hne].
      * rewrite lookup_insert_eq; eauto.
      * by rewrite lookup_insert_ne.
  - by rewrite (invoke_rejected _ _ _ _ Hcall).
Qed.

(** ** Sequences of listing calls *)

Lemma listing_overwrites o σ r w' :
  is_listing o = true ->
  service_call svc o (world σ) = (Fulfilled r, w') ->
  invoke serializeHash svc o σ
  = (Fulfilled tt,
     {| world := w';
        store := {| profiles :=
          overwrite_all (profiles (store σ))
            (entries_of (Failure:=Failure) (Fulfilled r)) |} |}).
Proof.
  intros Hlisting Hcall.
  destruct (invoke_fulfilled _ _ _ _ Hcall) as (cache' & -> & ->).
  by destruct o, r.
Qed.

Lemma listings_overwrite_all os σ :
  forallb is_listing os = true ->
  forallb fulfilled (transcript svc os (world σ)) = true ->
  exists σ',
    for_of os (invoke serializeHash svc) σ = (Fulfilled tt, σ')
    /\ profiles (store σ')
       = overwrite_all (profiles (store σ))
           (returned_entries (transcript svc os (world σ))).
Proof.
  revert σ. induction os as [|o os IH]; intros σ Hlisting Hfulfilled.
  - exists σ. done.
  - cbn in Hlisting. apply andb_prop in Hlisting as [Ho Hos].
    cbn in Hfulfilled.
    destruct (service_call svc o (world σ)) as [r w'] eqn:Hcall.
    cbn in Hfulfilled. apply andb_prop in Hfulfilled as [Hr Hrs].
    destruct r as [r|err]; [|done].
    pose proof (listing_overwrites _ _ _ _ Ho Hcall) as Hstep.
    set (σ1 := {| world := w';
                  store := {| profiles :=
                    overwrite_all (profiles (store σ))
                      (entries_of (Failure:=Failure) (Fulfilled r)) |} |}) in *.
    destruct (IH σ1 Hos Hrs) as (σ' & Hrun & Hcache).
    exists σ'. split.
    + cbn. unfold mbind, Async_bind, bind. by rewrite Hstep.
    + rewrite Hcache. cbn. rewrite Hcall. unfold returned_entries. cbn.
      by rewrite overwrite_all_app.
Qed.

(** C1.  A caller runs any sequence of [fetchAllProfiles] and
    [searchProfiles] calls, from any cache, and the service fulfils every
    one of them.  Then every call fulfils, and the final cache is the
    initial cache overwritten by the union of all the entries the service
    returned, where for each agent id the profile received last wins:
    an id among the entries maps to the last profile received for it, any
    other id maps to what the initial cache held. *)
Theorem listings_leave_union_last_received_wins os σ :
  forallb is_listing os = true ->
  forallb fulfilled (transcript svc os (world σ)) = true ->
  exists σ',
    for_of os (invoke serializeHash svc) σ = (Fulfilled tt, σ')
    /\ profiles (store σ')
       = overwritten_by (profiles (store σ))
           (union_last_wins (returned_entries (transcript svc os (world σ))))
    /\ forall agentId,
         profiles (store σ') !! agentId
         = match last_received agentId
                   (returned_entries (transcript svc os (world σ))) with
           | Some p => Some p
           | None => profiles (store σ) !! agentId
           end.
Proof.
  intros Hlisting Hfulfilled.
  destruct (listings_overwrite_all os σ Hlisting Hfulfilled)
    as (σ' & Hrun & Hcache).
  exists σ'. rewrite Hcache, overwrite_all_union. split; [done|].
  split; [done|]. intros agentId. apply overwritten_by_lookup.
Qed.

(** C2.  When the service call behind [fetchAllProfiles], [fetchMyProfile],
    [searchProfiles] or [createProfile] rejects, the method rejects with
    the same failure and the store is the one from before the call. *)
Theorem rejected_call_leaves_store_and_propagates o σ err w' :
  service_call svc o (world σ) = (Rejected err, w') ->
  invoke serializeHash svc o σ
  = (Rejected err, {| world := w'; store := store σ |}).
Proof. apply invoke_rejected. Qed.

(** C3.  When [getAllProfiles] fulfils with [found], [fetchAllProfiles]
    fulfils with no value and leaves the world as the service call left
    it; it has overwritten the cache with the entries of [found] in
    order.  For every item of [found]: once the loop has reached it, the
    cache maps its agent id to its profile, and unless a later item of
    [found] has the same id, the final cache still does.  Entries under
    ids that [found] does not name are as before. *)
Theorem fetchAllProfiles_overwrites_every_item σ found w' :
  ProfilesService.getAllProfiles svc (world σ) = (Fulfilled found, w') ->
  exists cache',
    fetchAllProfiles svc σ
    = (Fulfilled tt, {| world := w'; store := {| profiles := cache' |} |})
    /\ cache' = overwrite_all (profiles (store σ)) found
    /\ (forall before e after,
          found = before ++ e :: after ->
          overwrite_all (profiles (store σ)) (before ++ [e])
            !! agent_pub_key e = Some (profile e)
          /\ cache'
             = overwrite_all
                 (overwrite_all (profiles (store σ)) (before ++ [e])) after
          /\ (agent_pub_key e ∉ agent_pub_key <$> after ->
              cache' !! agent_pub_key e = Some (profile e)))
    /\ (forall agentId,
          agentId ∉ agent_pub_key <$> found ->
          cache' !! agentId = profiles (store σ) !! agentId).
Proof.
  intros Hcall. eexists. split; [by apply fetchAllProfiles_fulfilled|].
  split; [done|]. split.
  - intros before e after ->.
    assert (overwrite_all (profiles (store σ)) (before ++ [e])
              !! agent_pub_key e = Some (profile e)) as Hwritten
      by (rewrite overwrite_all_snoc; apply lookup_insert_eq).
    split; [done|]. split.
    + by rewrite <- overwrite_all_app, <- (assoc_L (++)).
    + intros Hlater.
      rewrite (cons_middle e before after), (assoc_L (++)).
      rewrite overwrite_all_app. by rewrite overwrite_all_untouched.
  - intros agentId Hnot. by apply overwrite_all_untouched.
Qed.

(** C4.  When the service accepts [createProfile(p)], the method fulfils
    having made that one service call, and [myProfile] read right after
    is exactly [p]. *)
Theorem createProfile_then_myProfile_is_input p σ w' :
  ProfilesService.createProfile svc p (world σ) = (Fulfilled tt, w') ->
  exists s',
    createProfile serializeHash svc p σ
    = (Fulfilled tt, {| world := w'; store := s' |})
    /\ myProfile serializeHash svc s' = Some p.
Proof.
  intros Hcall. eexists. split; [by apply createProfile_fulfilled|].
  unfold myProfile. cbn. apply lookup_insert_eq.
Qed.

(** C5.  For any sequence [found]: when [searchProfiles] gets [found] from
    the service and [fetchAllProfiles] gets the same [found], from stores
    that hold the same cache, both fulfil and leave the same store, the
    cache overwritten with every entry of [found] in order, none left
    out. *)
Theorem searchProfiles_merges_as_fetchAllProfiles
    nicknamePrefix σ1 σ2 found w1 w2 :
  ProfilesService.searchProfiles svc nicknamePrefix (world σ1)
  = (Fulfilled found, w1) ->
  ProfilesService.getAllProfiles svc (world σ2) = (Fulfilled found, w2) ->
  store σ1 = store σ2 ->
  fst (searchProfiles svc nicknamePrefix σ1) = Fulfilled tt
  /\ fst (fetchAllProfiles svc σ2) = Fulfilled tt
  /\ store (snd (searchProfiles svc nicknamePrefix σ1))
     = store (snd (fetchAllProfiles svc σ2))
  /\ profiles (store (snd (searchProfiles svc nicknamePrefix σ1)))
     = overwrite_all (profiles (store σ1)) found.
Proof.
  intros Hsearch Hall Hstore.
  rewrite (searchProfiles_fulfilled _ _ _ _ Hsearch).
  rewrite (fetchAllProfiles_fulfilled _ _ _ Hall). cbn.
  by rewrite Hstore.
Qed.

(** ** Methods modelled from the spec *)

Lemma fetchAgentProfile_settles agentId σ :
  fetchAgentProfile svc agentId σ
  = match ProfilesService.getAgentProfile svc agentId (world σ) with
    | (Fulfilled (Some agentProfile), w') =>
        (Fulfilled tt,
         {| world := w';
            store := {| profiles :=
              <[agentId := profile agentProfile]> (profiles (store σ)) |} |})
    | (Fulfilled None, w') => (Fulfilled tt, {| world := w'; store := store σ |})
    | (Rejected err, w') => (Rejected err, {| world := w'; store := store σ |})
    end.
Proof.
  unfold fetchAgentProfile, mbind, Async_bind, bind, await.
  by destruct (ProfilesService.getAgentProfile svc agentId (world σ))
    as [[[agentProfile|]|err] w'].
Qed.

(** C6.  [fetchAgentProfile(agentId)] makes the one service call
    [getAgentProfile(agentId)].  When it fulfils with a profile the method
    fulfils and the cache is the one before with [agentId] mapped to that
    profile; when it fulfils with no profile the method fulfils and the
    store is unchanged. *)
Theorem fetchAgentProfile_writes_entry_on_success agentId σ answer w' :
  ProfilesService.getAgentProfile svc agentId (world σ)
  = (Fulfilled answer, w') ->
  exists s',
    fetchAgentProfile svc agentId σ
    = (Fulfilled tt, {| world := w'; store := s' |})
    /\ match answer with
       | Some agentProfile =>
           profiles s'
           = <[agentId := profile agentProfile]> (profiles (store σ))
           /\ profileOf s' agentId = Some (profile agentProfile)
       | None => s' = store σ
       end.
Proof.
  intros Hcall. rewrite fetchAgentProfile_settles, Hcall.
  destruct answer as [agentProfile|]; eexists; (split; [done|]); cbn.
  - split; [done|]. unfold profileOf. cbn. apply lookup_insert_eq.
  - done.
Qed.

Lemma serve_follows_obtained q σ :
  world (snd (serve serializeHash svc q σ))
  = snd (obtained serializeHash svc q (world σ))
  /\ forall agentId,
       agentId ∉ fst (obtained serializeHash svc q (world σ)) ->
       profiles (store (snd (serve serializeHash svc q σ))) !! agentId
       = profiles (store σ) !! agentId.
Proof.
  destruct q as [o|asked]; cbn.
  - destruct (service_call svc o (world σ)) as [[r|err] w'] eqn:Hcall.
    + destruct (invoke_fulfilled _ _ _ _ Hcall) as (cache' & -> & ->).
      cbn. split; [done|]. intros agentId Hnot.
      destruct o, r; try done;
        try (by apply overwrite_all_untouched);
        try (apply not_elem_of_cons in Hnot as [Hne _];
             by rewrite lookup_insert_ne).
      all: exfalso; revert Hcall; cbn;
        repeat match goal with
               | |- context [let '(_, _) := ?c in _] => destruct c as [[?|?] ?]
               end; cbn; congruence.
    + by rewrite (invoke_rejected _ _ _ _ Hcall).
  - rewrite fetchAgentProfile_settles.
    destruct (ProfilesService.getAgentProfile svc asked (world σ))
      as [[[agentProfile|]|err] w']; cbn; (split; [done|]);
      intros agentId Hnot; try done.
    apply not_elem_of_cons in Hnot as [Hne _]. by rewrite lookup_insert_ne.
Qed.

Lemma session_untouched qs σ agentId :
  agentId ∉ obtained_along serializeHash svc qs (world σ) ->
  profiles (store (session (serve serializeHash svc) qs σ)) !! agentId
  = profiles (store σ) !! agentId.
Proof.
  revert σ. induction qs as [|q qs IH]; intros σ Hnot; [done|].
  cbn in Hnot |- *.
  destruct (serve_follows_obtained q σ) as [Hworld Hkeep].
  destruct (obtained serializeHash svc q (world σ)) as [ids w'].
  cbn in Hworld, Hkeep. apply not_elem_of_app in Hnot as [Hq Hqs].
  rewrite IH by (by rewrite Hworld). by apply Hkeep.
Qed.

(** C7.  [profileOf] is a function of the store alone and reads the cache:
    the profile under [agentId] when there is one, absent otherwise.  For
    a store that started empty and served any requests (methods of the
    class and [fetchAgentProfile], fulfilled or rejected), it is absent for
    every id that no fulfilled request obtained a profile for. *)
Theorem profileOf_reads_cache_absent_unless_obtained qs w agentId :
  (forall s,
     profileOf s agentId = profiles s !! agentId
     /\ (agentId ∈ dom (profiles s) -> is_Some (profileOf s agentId))
     /\ (agentId ∉ dom (profiles s) -> profileOf s agentId = None))
  /\ (agentId ∉ obtained_along serializeHash svc qs w ->
      profileOf
        (store (session (serve serializeHash svc) qs
                  {| world := w; store := new |}))
        agentId
      = None).
Proof.
  split.
  - intros s. unfold profileOf. split; [done|]. split.
    + by intros ?%elem_of_dom.
    + by intros ?%not_elem_of_dom.
  - intros Hnot. unfold profileOf. by rewrite session_untouched.
Qed.

(** C8.  No method removes a cache entry: an agent id present in the cache
    before a call of [fetchAllProfiles], [fetchMyProfile],
    [searchProfiles] or [createProfile] is present after it, whether the
    call fulfilled or rejected; and so it is after any number of calls. *)
Theorem cache_entries_are_never_removed σ agentId :
  agentId ∈ dom (profiles (store σ)) ->
  (forall o,
     agentId ∈ dom (profiles (store (snd (invoke serializeHash svc o σ)))))
  /\ (forall os,
        agentId
        ∈ dom (profiles (store (session (invoke serializeHash svc) os σ)))).
Proof.
  intros Hin. split.
  - intros o. apply elem_of_dom, invoke_keeps_entries. by apply elem_of_dom.
  - intros os. revert σ Hin. induction os as [|o os IH]; intros σ Hin.
    + done.
    + cbn. apply IH. apply elem_of_dom, invoke_keeps_entries.
      by apply elem_of_dom.
Qed.

(** C9.  [fetchMyProfile] and [createProfile] write the entry under the
    store's own agent id and no other: when the service call fulfils, the
    own entry holds the profile obtained (resp. the profile passed in),
    and for every other agent id the cached profile after the call equals
    the one before it. *)
Theorem own_profile_methods_write_own_entry_only σ agentId :
  agentId <> me ->
  (forall mine w',
     ProfilesService.getMyProfile svc (world σ) = (Fulfilled mine, w') ->
     let s' := store (snd (fetchMyProfile serializeHash svc σ)) in
     fst (fetchMyProfile serializeHash svc σ) = Fulfilled tt
     /\ profiles s' !! me = Some (profile mine)
     /\ profiles s' !! agentId = profiles (store σ) !! agentId)
  /\ (forall p w',
        ProfilesService.createProfile svc p (world σ) = (Fulfilled tt, w') ->
        let s' := store (snd (createProfile serializeHash svc p σ)) in
        fst (createProfile serializeHash svc p σ) = Fulfilled tt
        /\ profiles s' !! me = Some p
        /\ profiles s' !! agentId = profiles (store σ) !! agentId).
Proof.
  intros Hother. split.
  - intros mine w' Hcall. rewrite (fetchMyProfile_fulfilled _ _ _ Hcall).
    cbn. by rewrite lookup_insert_eq, lookup_insert_ne.
  - intros p w' Hcall. rewrite (createProfile_fulfilled _ _ _ Hcall).
    cbn. by rewrite lookup_insert_eq, lookup_insert_ne.
Qed.

(** ** Further properties of the store *)

Lemma overwrite_all_dom_exact cache entries :
  dom (overwrite_all cache entries)
  = dom cache ∪ list_to_set (agent_pub_key <$> entries).
Proof.
  revert cache. induction entries as [|e entries IH]; intros cache; cbn.
  - by rewrite (right_id_L ∅ (∪)).
  - rewrite IH. unfold overwrite. rewrite dom_insert_L.
    by rewrite (comm_L (∪) {[agent_pub_key e]}), (assoc_L (∪)).
Qed.

Lemma overwrite_all_size cache entries :
  size (overwrite_all cache entries) <= size cache + List.length entries.
Proof.
  revert cache. induction entries as [|e entries IH]; intros cache.
  - cbn [List.length]. unfold overwrite_all. cbn [foldl]. lia.
  - change (overwrite_all cache (e :: entries))
      with (overwrite_all (overwrite cache e) entries).
    pose proof (IH (overwrite cache e)) as Hrest.
    unfold overwrite in Hrest at 2. rewrite map_size_insert in Hrest.
    cbn [List.length]. destruct (cache !! agent_pub_key e); unfold id in Hrest; lia.
Qed.

Lemma overwrite_all_again cache entries :
  overwrite_all (overwrite_all cache entries) entries
  = overwrite_all cache entries.
Proof.
  rewrite !overwrite_all_union. unfold overwritten_by.
  by rewrite (assoc_L (∪)), (idemp_L (∪)).
Qed.

Lemma overwrite_all_disjoint_commute cache entries1 entries2 :
  (forall agentId,
     agentId ∈ agent_pub_key <$> entries1 ->
     agentId ∉ agent_pub_key <$> entries2) ->
  overwrite_all (overwrite_all cache entries1) entries2
  = overwrite_all (overwrite_all cache entries2) entries1.
Proof.
  intros Hdisjoint. apply map_eq. intros agentId.
  destruct (decide (agentId ∈ agent_pub_key <$> entries1)) as [Hin1|Hout1].
  - rewrite (overwrite_all_untouched _ entries2) by auto.
    rewrite !overwrite_all_union, !overwritten_by_lookup.
    destruct (last_received agentId entries1) eqn:Hlast; [done|].
    rewrite <- overwritten_by_lookup, <- overwrite_all_union.
    by rewrite overwrite_all_untouched by auto.
  - rewrite (overwrite_all_untouched _ entries1 agentId Hout1).
    rewrite !overwrite_all_union, !overwritten_by_lookup.
    destruct (last_received agentId entries2) eqn:Hlast; [done|].
    rewrite <- overwritten_by_lookup, <- overwrite_all_union.
    by rewrite overwrite_all_untouched.
Qed.

(** [knownProfiles] lists the cache and nothing else: an agent with its
    profile is listed exactly when the cache holds that profile under that
    agent's key; no agent is listed twice; there are as many items as cache
    entries. *)
Theorem knownProfiles_lists_the_cache (s : t) :
  (forall e,
     e ∈ knownProfiles s <-> profiles s !! agent_pub_key e = Some (profile e))
  /\ NoDup (agent_pub_key <$> knownProfiles s)
  /\ List.length (knownProfiles s) = size (profiles s).
Proof.
  unfold knownProfiles. split; [|split].
  - intros [k p]. cbn. rewrite list_elem_of_fmap. split.
    + intros ([k' p'] & [= -> ->] & Hin). by apply elem_of_map_to_list.
    + intros Hin. exists (k, p). split; [done|]. by apply elem_of_map_to_list.
  - rewrite <- list_fmap_compose.
    assert ((agent_pub_key
               ∘ (fun '(agent_pub_key, profile) =>
                    {| agent_pub_key := agent_pub_key; profile := profile |}))
              <$> map_to_list (profiles s)
            = (map_to_list (profiles s)).*1) as ->
      by (apply list_fmap_ext; by intros ? [? ?] ?).
    apply NoDup_fst_map_to_list.
  - by rewrite length_fmap, length_map_to_list.
Qed.

(** A store that starts empty and fetches a listing in which no agent occurs
    twice knows exactly that listing: [knownProfiles] is a permutation of
    what the service returned. *)
Theorem knownProfiles_after_first_fetch w found w' :
  ProfilesService.getAllProfiles svc w = (Fulfilled found, w') ->
  NoDup (agent_pub_key <$> found) ->
  knownProfiles
    (store (snd (fetchAllProfiles svc {| world := w; store := new |})))
  ≡ₚ found.
Proof.
  intros Hcall Hnodup.
  rewrite (fetchAllProfiles_fulfilled {| world := w; store := new |} _ _ Hcall).
  unfold knownProfiles. cbn.
  rewrite overwrite_all_union. unfold overwritten_by, union_last_wins.
  rewrite (right_id_L ∅ (∪)).
  rewrite map_to_list_to_map.
  - rewrite reverse_Permutation, <- list_fmap_compose.
    rewrite <- (list_fmap_id found) at 2.
    match goal with |- ?l ≡ₚ ?r => assert (l = r) as -> end; [|done].
    apply list_fmap_ext. by intros ? [? ?] ?.
  - rewrite fmap_reverse, <- list_fmap_compose, reverse_Permutation.
    exact Hnodup.
Qed.

(** A fulfilled [fetchAllProfiles] or [searchProfiles] leaves in the cache
    exactly the agents that were there and the agents of the entries
    returned, so the cache grows by at most the number of entries. *)
Theorem listing_adds_exactly_returned_agents o σ r w' :
  is_listing o = true ->
  service_call svc o (world σ) = (Fulfilled r, w') ->
  dom (profiles (store (snd (invoke serializeHash svc o σ))))
  = dom (profiles (store σ))
    ∪ list_to_set (agent_pub_key <$> entries_of (Failure:=Failure) (Fulfilled r))
  /\ size (profiles (store (snd (invoke serializeHash svc o σ))))
     <= size (profiles (store σ))
        + List.length (entries_of (Failure:=Failure) (Fulfilled r)).
Proof.
  intros Hlisting Hcall. rewrite (listing_overwrites _ _ _ _ Hlisting Hcall).
  cbn. split; [apply overwrite_all_dom_exact|apply overwrite_all_size].
Qed.

(** Fetching twice when the service answers the same both times leaves the
    store as the first fetch left it. *)
Theorem fetchAllProfiles_again_leaves_store σ found w1 w2 :
  ProfilesService.getAllProfiles svc (world σ) = (Fulfilled found, w1) ->
  ProfilesService.getAllProfiles svc w1 = (Fulfilled found, w2) ->
  fetchAllProfiles svc (snd (fetchAllProfiles svc σ))
  = (Fulfilled tt,
     {| world := w2; store := store (snd (fetchAllProfiles svc σ)) |}).
Proof.
  intros Hfirst Hsecond. rewrite (fetchAllProfiles_fulfilled _ _ _ Hfirst).
  cbn. rewrite (fetchAllProfiles_fulfilled _ found w2) by done.
  cbn. by rewrite overwrite_all_again.
Qed.

(** When a full listing and a search return entries about different agents,
    the cache they leave does not depend on which of the two ran first. *)
Theorem listings_of_different_agents_commute
    nicknamePrefix σ all searched wa wa' wb wb' :
  ProfilesService.getAllProfiles svc (world σ) = (Fulfilled all, wa) ->
  ProfilesService.searchProfiles svc nicknamePrefix wa
  = (Fulfilled searched, wa') ->
  ProfilesService.searchProfiles svc nicknamePrefix (world σ)
  = (Fulfilled searched, wb) ->
  ProfilesService.getAllProfiles svc wb = (Fulfilled all, wb') ->
  (forall agentId,
     agentId ∈ agent_pub_key <$> all ->
     agentId ∉ agent_pub_key <$> searched) ->
  store (snd (searchProfiles svc nicknamePrefix (snd (fetchAllProfiles svc σ))))
  = store (snd (fetchAllProfiles svc (snd (searchProfiles svc nicknamePrefix σ)))).
Proof.
  intros Hall1 Hsearch1 Hsearch2 Hall2 Hdisjoint.
  rewrite (fetchAllProfiles_fulfilled _ _ _ Hall1).
  rewrite (searchProfiles_fulfilled nicknamePrefix σ _ _ Hsearch2).
  rewrite (searchProfiles_fulfilled nicknamePrefix _ searched wa') by done.
  rewrite (fetchAllProfiles_fulfilled _ all wb') by done.
  cbn. f_equal. by apply overwrite_all_disjoint_commute.
Qed.

(** The local echo of [createProfile] lasts until a listing names the
    store's own agent: after a fulfilled [createProfile(p)] and a fulfilled
    [fetchAllProfiles], [myProfile] is the last profile the listing holds for
    the own agent id, and [p] when it holds none. *)
Theorem myProfile_after_createProfile_then_fetchAllProfiles p σ w1 found w2 :
  ProfilesService.createProfile svc p (world σ) = (Fulfilled tt, w1) ->
  ProfilesService.getAllProfiles svc w1 = (Fulfilled found, w2) ->
  myProfile serializeHash svc
    (store (snd (fetchAllProfiles svc
                   (snd (createProfile serializeHash svc p σ)))))
  = match last_received me found with
    | Some listed => Some listed
    | None => Some p
    end.
Proof.
  intros Hcreate Hfetch. rewrite (createProfile_fulfilled _ _ _ Hcreate).
  rewrite (fetchAllProfiles_fulfilled _ found w2) by done.
  unfold myProfile. cbn.
  rewrite overwrite_all_union, overwritten_by_lookup.
  by rewrite lookup_insert_eq.
Qed.

Lemma invoke_dom_obtained o σ :
  world (snd (invoke serializeHash svc o σ))
  = snd (obtained serializeHash svc (Method o) (world σ))
  /\ dom (profiles (store (snd (invoke serializeHash svc o σ))))
     = dom (profiles (store σ))
       ∪ list_to_set (fst (obtained serializeHash svc (Method o) (world σ))).
Proof.
  cbn. destruct (service_call svc o (world σ)) as [[r|err] w'] eqn:Hcall.
  - destruct (invoke_fulfilled _ _ _ _ Hcall) as (cache' & -> & ->).
    cbn. split; [done|].
    destruct o, r; cbn;
      rewrite ?overwrite_all_dom_exact, ?dom_insert_L; try done;
      try (by rewrite (right_id_L ∅ (∪)), (comm_L (∪))).
    all: exfalso; revert Hcall; cbn;
      repeat match goal with
             | |- context [let '(_, _) := ?c in _] => destruct c as [[?|?] ?]
             end; cbn; congruence.
  - rewrite (invoke_rejected _ _ _ _ Hcall). cbn.
    by rewrite (right_id_L ∅ (∪)).
Qed.

(** Over any session of method calls, fulfilled or rejected, the agents in
    the cache are exactly those it started with and those for which a
    fulfilled call obtained a profile. *)
Theorem session_cache_holds_exactly_obtained_agents os σ :
  dom (profiles (store (session (invoke serializeHash svc) os σ)))
  = dom (profiles (store σ))
    ∪ list_to_set
        (obtained_along serializeHash svc (Method <$> os) (world σ)).
Proof.
  revert σ. induction os as [|o os IH]; intros σ.
  - cbn. by rewrite (right_id_L ∅ (∪)).
  - cbn [session fmap list_fmap obtained_along].
    destruct (invoke_dom_obtained o σ) as [Hworld Hdom].
    rewrite IH, Hdom, Hworld.
    destruct (obtained serializeHash svc (Method o) (world σ)) as [ids w'].
    cbn. by rewrite list_to_set_app_L, (assoc_L (∪)).
Qed.

End Proofs.
End StoreSpec.

(** * Properties of the edit-profile form *)
Module EditProfileSpec.
Import EditProfile.

Example split_field_id :
  split "-" "profile-field-location" = ["profile"; "field"; "location"]%string.
Proof. reflexivity. Qed.

Example textfieldToFieldId_keeps_third_piece :
  textfieldToFieldId {| id := "profile-field-first-name"; value := "Ada" |}
  = Some "first"%string.
Proof. reflexivity. Qed.

Example textfieldToFieldId_undefined :
  property_key (textfieldToFieldId {| id := "bio"; value := "..." |})
  = "undefined"%string.
Proof. reflexivity. Qed.

(** ** Lists *)

Lemma filter_filter {A} (p q : A -> bool) (l : list A) :
  List.filter q (List.filter p l) = List.filter (fun a => p a && q a) l.
Proof.
  induction l as [|a l IH]; cbn; [done|].
  destruct (p a); cbn; [|done]. destruct (q a); by rewrite IH.
Qed.

Lemma filter_fmap {A B} (f : A -> B) (p : B -> bool) (l : list A) :
  List.filter p (f <$> l) = f <$> List.filter (fun a => p (f a)) l.
Proof.
  induction l as [|a l IH]; cbn; [done|].
  destruct (p (f a)); cbn; by rewrite IH.
Qed.


Lemma filter_agree {A} (p q : A -> bool) (l : list A) :
  (forall a, a ∈ l -> p a = q a) -> List.filter p l = List.filter q l.
Proof.
  induction l as [|a l IH]; intros Hsame; cbn; [done|].
  rewrite (Hsame a) by left. rewrite IH; [done|].
  intros b Hb. apply Hsame. by right.
Qed.




(** ** Field ids *)

Lemma split_nonempty sep s : split sep s <> [].
Proof.
  destruct s as [|c s]; cbn -[Ascii.eqb]; [done|].
  destruct (Ascii.eqb c sep); [done|]. by destruct (split sep s).
Qed.

Lemma split_append_separator sep a b :
  split sep (a ++ String sep b) = (split sep a ++ split sep b)%list.
Proof.
  induction a as [|c a IH].
  - change (split sep (String sep b) = EmptyString :: split sep b).
    cbn -[Ascii.eqb]. by rewrite Ascii.eqb_refl.
  - change (String c a ++ String sep b) with (String c (a ++ String sep b)).
    cbn -[Ascii.eqb]. rewrite IH. destruct (Ascii.eqb c sep); [done|].
    pose proof (split_nonempty sep a). by destruct (split sep a).
Qed.

Lemma split_hyphen_free s : hyphen_free s = true -> split "-" s = [s].
Proof.
  unfold hyphen_free. induction s as [|c s IH]; cbn -[Ascii.eqb]; [done|].
  intros [Hc Hs]%andb_prop. apply negb_true_iff in Hc. rewrite Hc.
  by rewrite IH.
Qed.

Lemma split_rendered_id name :
  split "-" ("profile-field-" ++ name)
  = "profile" :: "field" :: split "-" name.
Proof. reflexivity. Qed.

Lemma key_of_rendered_field name text :
  hyphen_free name = true ->
  property_key
    (textfieldToFieldId {| id := "profile-field-" ++ name; value := text |})
  = name.
Proof.
  intros Hfree. unfold textfieldToFieldId. cbn [id].
  by rewrite split_rendered_id, split_hyphen_free.
Qed.


(** ** Records filled by assignment *)

(** Filing the items of a list under their keys, one after the other,
    leaves under each key the last item that has it, and nothing under
    ["__proto__"]. *)
Lemma filed_last {A} (key : A -> string) (l : list A) (k : string) :
  foldl (fun (filed : gmap string A) a => assign (key a) a filed) ∅ l !! k
  = if String.eqb k "__proto__" then None
    else last (List.filter (fun a => String.eqb (key a) k) l).
Proof.
  induction l as [|a l IH] using rev_ind.
  - cbn. by destruct (String.eqb k "__proto__").
  - rewrite foldl_app, List.filter_app. cbn [foldl List.filter].
    unfold assign at 1.
    destruct (String.eqb_spec (key a) "__proto__") as [Hproto|Hplain].
    + rewrite IH. destruct (String.eqb k "__proto__") eqn:Hk; [done|].
      apply String.eqb_neq in Hk.
      destruct (String.eqb_spec (key a) k) as [Hsame|_]; [congruence|].
      by rewrite (right_id_L [] (++)%list).
    + destruct (String.eqb_spec (key a) k) as [Hsame|Hne].
      * subst k. rewrite lookup_insert_eq, last_snoc.
        by destruct (String.eqb_spec (key a) "__proto__").
      * by rewrite lookup_insert_ne, IH, (right_id_L [] (++)%list).
Qed.

(** Copying a record entry by entry copies every entry. *)
Lemma copy_entries_fmap {A B} (f : A -> B) (m : gmap string A) :
  foldl (fun acc '(k, a) => <[k := f a]> acc) ∅ (map_to_list m) = f <$> m.
Proof.
  assert (forall (l : list (string * A)) (acc : gmap string B),
            foldl (fun acc '(k, a) => <[k := f a]> acc) acc l
            = list_to_map (reverse (prod_map Datatypes.id f <$> l)) ∪ acc) as Hfold.
  { induction l as [|[k a] l IH] using rev_ind; intros acc.
    - cbn. by rewrite (left_id_L ∅ (∪)).
    - rewrite foldl_app, fmap_app, reverse_app. cbn.
      by rewrite IH, insert_union_l. }
  rewrite Hfold, (right_id_L ∅ (∪)).
  rewrite <- (list_to_map_to_list (f <$> m)).
  apply list_to_map_proper.
  - rewrite fmap_reverse, reverse_Permutation, <- list_fmap_compose.
    assert ((fst ∘ prod_map Datatypes.id f) <$> map_to_list m
            = (map_to_list m).*1) as ->
      by (apply list_fmap_ext; by intros ? [? ?] ?).
    apply NoDup_fst_map_to_list.
  - rewrite reverse_Permutation. by rewrite map_to_list_fmap.
Qed.

Lemma copy_entries_assign {A B} (f : A -> B) (l : list (string * A))
    (acc : gmap string B) :
  Forall (fun entry => entry.1 <> "__proto__") l ->
  foldl (fun acc '(k, a) => assign k (f a) acc) acc l
  = foldl (fun acc '(k, a) => <[k := f a]> acc) acc l.
Proof.
  intros Hplain. revert acc.
  induction Hplain as [|[k a] l Hk _ IH]; intros acc; [done|].
  cbn. unfold assign at 2. cbn in Hk.
  destruct (String.eqb_spec k "__proto__"); [done|]. apply IH.
Qed.

Lemma getAdditionalTextFields_lookup e k :
  getAdditionalTextFields e !! k
  = if String.eqb k "__proto__" then None
    else last
           (List.filter
              (fun f =>
                 negb (String.eqb (id f) "nickname-field")
                 && String.eqb (property_key (textfieldToFieldId f)) k)
              (textfields e)).
Proof.
  unfold getAdditionalTextFields.
  rewrite (filed_last (fun f => property_key (textfieldToFieldId f))).
  by rewrite filter_filter.
Qed.

Lemma getAdditionalFieldsValues_values e :
  getAdditionalFieldsValues e = value <$> getAdditionalTextFields e.
Proof.
  unfold getAdditionalFieldsValues.
  rewrite copy_entries_assign; [apply copy_entries_fmap|].
  apply Forall_forall. intros [k f] Hin Hk. cbn in Hk. subst k.
  apply elem_of_map_to_list in Hin.
  by rewrite getAdditionalTextFields_lookup in Hin.
Qed.


(** The values read back from a form laid out for fields whose names have
    no hyphen: under each name but ["__proto__"], the text of the last field
    of that name. *)
Lemma rendered_values_lookup nickname additional avatar k :
  Forall (fun nv => hyphen_free nv.1 = true) additional ->
  getAdditionalFieldsValues (rendered nickname additional avatar) !! k
  = if String.eqb k "__proto__" then None
    else snd <$> last (List.filter (fun nv => String.eqb nv.1 k) additional).
Proof.
  intros Hfree. rewrite getAdditionalFieldsValues_values, lookup_fmap.
  rewrite getAdditionalTextFields_lookup.
  destruct (String.eqb k "__proto__"); [done|]. cbn.
  rewrite filter_fmap, fmap_last, <- option_fmap_compose.
  rewrite (filter_agree _ (fun nv => String.eqb nv.1 k)).
  - apply option_fmap_ext. by intros [? ?].
  - intros [name text] Hin. rewrite Forall_forall in Hfree.
    rewrite (key_of_rendered_field name text (Hfree _ Hin)). reflexivity.
Qed.

(** ** What [fireSaveProfile] emits *)



(** ** Further properties of the form *)

(** A field laid out by [renderField] is read back under its configured
    name only up to the first hyphen: the key is the first piece of the name,
    the whole name when it has no hyphen. *)
Theorem renderField_key_is_name_up_to_hyphen shown profile fieldConfig :
  textfieldToFieldId (renderField shown profile fieldConfig)
  = head (split "-" (Config.name fieldConfig))
  /\ (hyphen_free (Config.name fieldConfig) = true ->
      textfieldToFieldId (renderField shown profile fieldConfig)
      = Some (Config.name fieldConfig))
  /\ (forall first rest,
        hyphen_free first = true ->
        Config.name fieldConfig = first ++ String "-" rest ->
        textfieldToFieldId (renderField shown profile fieldConfig)
        = Some first).
Proof.
  unfold textfieldToFieldId, renderField. cbn [id].
  rewrite split_rendered_id. cbn. split; [|split].
  - by destruct (split "-" (Config.name fieldConfig)).
  - intros Hfree. by rewrite split_hyphen_free.
  - intros first rest Hfree ->.
    by rewrite split_append_separator, split_hyphen_free.
Qed.

(** A text field whose id has fewer than two hyphens has no third piece: it
    is filed under the key "undefined". *)
Theorem textfield_without_two_hyphens_is_filed_under_undefined a b text :
  hyphen_free a = true ->
  hyphen_free b = true ->
  property_key (textfieldToFieldId {| id := a; value := text |})
  = "undefined"
  /\ property_key
       (textfieldToFieldId {| id := a ++ String "-" b; value := text |})
     = "undefined".
Proof.
  intros Ha Hb. unfold textfieldToFieldId. cbn [id].
  by rewrite split_append_separator, !split_hyphen_free.
Qed.




(** ** The save button and the form as first laid out *)



Lemma mounted_rendered shown profile config :
  mounted shown profile config
  = rendered (or_empty (nickname <$> profile))
      ((fun c => (Config.name c, bound_text shown profile (Config.name c)))
         <$> Config.additionalFields config)
      (firstUpdated_avatar profile).
Proof.
  unfold mounted, rendered, render. do 3 f_equal.
  by rewrite <- list_fmap_compose.
Qed.

Lemma configured_value_lookup (text : string -> string)
    (configs : list Config.FieldConfig) k :
  snd <$> last (List.filter (fun nv : string * string => String.eqb nv.1 k)
                  ((fun c => (Config.name c, text (Config.name c)))
                     <$> configs))
  = if decide (k ∈ Config.name <$> configs) then Some (text k) else None.
Proof.
  induction configs as [|c configs IH] using rev_ind.
  - cbn. destruct (decide (k ∈ [])) as [Hin|]; [|done].
    by apply elem_of_nil in Hin.
  - rewrite !fmap_app, List.filter_app. cbn.
    destruct (String.eqb_spec (Config.name c) k) as [->|Hne].
    + rewrite last_snoc. cbn. rewrite decide_True; [done|].
      apply elem_of_app. right. by left.
    + rewrite (right_id_L [] (++)%list), IH.
      apply decide_ext. rewrite elem_of_app, list_elem_of_singleton.
      intuition congruence.
Qed.

(** What saving the form gives right after it was laid out for [profile]. *)
Lemma mounted_save shown profile config :
  Forall (fun c => hyphen_free (Config.name c) = true)
    (Config.additionalFields config) ->
  exists ev,
    fireSaveProfile (mounted shown profile config) = Some ev
    /\ nickname (detail_profile ev) = or_empty (nickname <$> profile)
    /\ forall k,
         fields (detail_profile ev) !! k
         = if decide (k = "avatar"
                      /\ truthy (firstUpdated_avatar profile) = true)
           then firstUpdated_avatar profile
           else if decide (k <> "__proto__"
                           /\ k ∈ Config.name <$> Config.additionalFields config)
                then Some (bound_text shown profile k)
                else None.
Proof.
  intros Hfree.
  assert (forall k,
            getAdditionalFieldsValues (mounted shown profile config) !! k
            = if decide (k <> "__proto__"
                         /\ k ∈ Config.name <$> Config.additionalFields config)
              then Some (bound_text shown profile k)
              else None) as Hvalues.
  { intros k. rewrite mounted_rendered, rendered_values_lookup.
    - destruct (String.eqb_spec k "__proto__") as [Hk|Hk].
      + by rewrite decide_False by (by intros [? _]).
      + rewrite (configured_value_lookup (bound_text shown profile)).
        apply decide_ext. intuition.
    - apply Forall_fmap. by eapply Forall_impl; [exact Hfree|]. }
  unfold fireSaveProfile.
  change (_nicknameField (mounted shown profile config))
    with (Some {| id := "nickname-field";
                  value := or_empty (nickname <$> profile) |}).
  eexists. split; [reflexivity|]. split; [reflexivity|].
  intros k. cbn -[truthy getAdditionalFieldsValues mounted].
  change (_avatar (mounted shown profile config))
    with (firstUpdated_avatar profile).
  destruct (firstUpdated_avatar profile) as [avatar|].
  - destruct (truthy (Some avatar)) eqn:Htruthy.
    + destruct (decide (k = "avatar")) as [->|Hne].
      * rewrite lookup_insert_eq. by rewrite decide_True.
      * rewrite lookup_insert_ne by done.
        rewrite decide_False by (by intros [? _]). apply Hvalues.
    + rewrite decide_False by (intros [_ ?]; congruence). apply Hvalues.
  - rewrite decide_False by (by intros [_ ?]). apply Hvalues.
Qed.



(** Saving a form right after it was laid out for a profile gives back the
    profile's nickname and fields, when the field names configured have no
    hyphen and are not "__proto__", the profile has a text for each of
    them, and it has no other field except possibly a non-empty avatar. *)
Theorem save_of_untouched_form_returns_profile shown p config :
  Forall (fun c => hyphen_free (Config.name c) = true)
    (Config.additionalFields config) ->
  "__proto__" ∉ Config.name <$> Config.additionalFields config ->
  (forall k,
     k ∈ Config.name <$> Config.additionalFields config ->
     is_Some (fields p !! k)) ->
  (forall k,
     is_Some (fields p !! k) ->
     k ∈ Config.name <$> Config.additionalFields config
     \/ (k = "avatar" /\ fields p !! "avatar" <> Some EmptyString)) ->
  exists ev,
    fireSaveProfile (mounted shown (Some p) config) = Some ev
    /\ nickname (detail_profile ev) = nickname p
    /\ fields (detail_profile ev) = fields p.
Proof.
  intros Hfree Hproto Hconfigured Hothers.
  destruct (mounted_save shown (Some p) config Hfree)
    as (ev & Hfire & Hnick & Hfields).
  exists ev. split; [done|]. destruct p as [nick' kept]. split.
  - rewrite Hnick. cbn. by destruct (String.eqb_spec nick' EmptyString) as [->|].
  - apply map_eq. intros k. rewrite Hfields. cbn -[truthy bound_text].
    destruct (decide (k = "avatar" /\ truthy (kept !! "avatar") = true))
      as [[-> _]|Hnot]; [done|].
    destruct (decide (k <> "__proto__"
                      /\ k ∈ Config.name <$> Config.additionalFields config))
      as [[_ Hin]|Hout].
    + destruct (Hconfigured k Hin) as [text Htext]. cbn in Htext.
      unfold bound_text. cbn. rewrite Htext. cbn.
      by destruct (String.eqb_spec text EmptyString) as [->|].
    + destruct (kept !! k) as [text|] eqn:Htext; [|done]. exfalso.
      destruct (Hothers k (mk_is_Some _ _ Htext)) as [Hin|[-> Havatar]].
      * apply Hout. split; [|done]. by intros ->.
      * apply Hnot. split; [done|]. cbn in Havatar.
        rewrite Htext in Havatar |- *. cbn.
        apply negb_true_iff, String.eqb_neq. congruence.
Qed.


End EditProfileSpec.

(** * The theorems at work on the in-memory service *)
Module StoreExamples.
Import ProfilesStore StoreSpec.
Local Open Scope list_scope.

Abbreviation svc := Demo.profilesService.
Abbreviation hash := Demo.serializeHash.

(** An empty store fetches a directory of Alice and Bob and knows both. *)
Example fetchAllProfiles_scenario :
  let σ' :=
    snd (fetchAllProfiles svc
           (Demo.start
              [ {| agent_pub_key := "A"; profile := Demo.alice |};
                {| agent_pub_key := "B"; profile := Demo.bob |} ]
              ∅)) in
  nickname <$> profileOf (store σ') "A" = Some "Alice"
  /\ nickname <$> profileOf (store σ') "B" = Some "Bob"
  /\ List.length (knownProfiles (store σ')) = 2%nat.
Proof. vm_compute. done. Qed.

(** A store that knows Bob searches for "Al": it then knows Alice too. *)
Example searchProfiles_scenario :
  let σ' :=
    snd (searchProfiles svc "Al"
           (Demo.start
              [ {| agent_pub_key := "A"; profile := Demo.alice |};
                {| agent_pub_key := "B"; profile := Demo.bob |} ]
              {[ "B" := Demo.bob ]})) in
  nickname <$> profileOf (store σ') "A" = Some "Alice"
  /\ nickname <$> profileOf (store σ') "B" = Some "Bob".
Proof. vm_compute. done. Qed.

(** Two listing calls over a directory that lists agent uA twice: the
    later profile (Carol's) is the one cached. *)
Lemma listings_on_demo_directory :
  forallb is_listing [FetchAllProfiles; SearchProfiles "B"] = true
  /\ forallb fulfilled
       (transcript svc [FetchAllProfiles; SearchProfiles "B"] Demo.directory)
     = true
  /\ exists σ',
       for_of [FetchAllProfiles; SearchProfiles "B"] (invoke hash svc)
         (Demo.start Demo.directory {[ "uZ" := Demo.bob ]})
       = (Fulfilled tt, σ')
       /\ profiles (store σ') !! "uA" = Some Demo.carol
       /\ profiles (store σ') !! "uZ" = Some Demo.bob.
Proof.
  split; [reflexivity|]. split; [reflexivity|].
  destruct (listings_leave_union_last_received_wins hash svc
              [FetchAllProfiles; SearchProfiles "B"]
              (Demo.start Demo.directory {[ "uZ" := Demo.bob ]})
              eq_refl eq_refl) as (σ' & Hrun & _ & Hlookup).
  exists σ'. split; [exact Hrun|].
  split; rewrite Hlookup; vm_compute; reflexivity.
Defined.

(** The demo service rejects a profile without a nickname. *)
Lemma rejected_createProfile_on_demo :
  service_call svc (CreateProfile Demo.nameless)
    Demo.directory
  = (Rejected "nickname is empty", Demo.directory)
  /\ invoke hash svc (CreateProfile Demo.nameless)
       (Demo.start Demo.directory {[ "uZ" := Demo.bob ]})
     = (Rejected "nickname is empty",
        Demo.start Demo.directory {[ "uZ" := Demo.bob ]}).
Proof.
  split; [reflexivity|].
  apply (rejected_call_leaves_store_and_propagates hash svc
           (CreateProfile Demo.nameless)
           (Demo.start Demo.directory {[ "uZ" := Demo.bob ]})).
  reflexivity.
Defined.

Lemma fetchAllProfiles_on_demo_directory :
  ProfilesService.getAllProfiles svc Demo.directory
  = (Fulfilled Demo.directory, Demo.directory)
  /\ exists cache',
       fetchAllProfiles svc (Demo.start Demo.directory ∅)
       = (Fulfilled tt, Demo.start Demo.directory cache')
       /\ cache' !! "uB" = Some Demo.bob.
Proof.
  split; [reflexivity|].
  destruct (fetchAllProfiles_overwrites_every_item svc
              (Demo.start Demo.directory ∅) Demo.directory Demo.directory
              eq_refl) as (cache' & Hrun & _ & Hitems & _).
  exists cache'. split; [exact Hrun|].
  destruct (Hitems
              [ {| agent_pub_key := "uA"; profile := Demo.alice |} ]
              {| agent_pub_key := "uB"; profile := Demo.bob |}
              [ {| agent_pub_key := "uA"; profile := Demo.carol |} ]
              eq_refl) as (_ & _ & Hfinal).
  apply Hfinal. apply (bool_decide_unpack _). vm_compute. exact I.
Defined.

Lemma createProfile_on_demo :
  ProfilesService.createProfile svc Demo.carol []
  = (Fulfilled tt,
     [ {| agent_pub_key := "uAli"; profile := Demo.carol |} ])
  /\ exists s',
       createProfile hash svc Demo.carol (Demo.start [] ∅)
       = (Fulfilled tt,
          {| world := [ {| agent_pub_key := "uAli"; profile := Demo.carol |} ];
             store := s' |})
       /\ myProfile hash svc s' = Some Demo.carol.
Proof.
  split; [reflexivity|].
  apply (createProfile_then_myProfile_is_input hash svc Demo.carol
           (Demo.start [] ∅)).
  reflexivity.
Defined.

(** Every nickname starts with the empty prefix: the search returns what
    the full listing returns. *)
Lemma searchProfiles_like_fetchAllProfiles_on_demo :
  ProfilesService.searchProfiles svc EmptyString Demo.directory
  = (Fulfilled Demo.directory, Demo.directory)
  /\ ProfilesService.getAllProfiles svc Demo.directory
     = (Fulfilled Demo.directory, Demo.directory)
  /\ store (snd (searchProfiles svc EmptyString (Demo.start Demo.directory ∅)))
     = store (snd (fetchAllProfiles svc (Demo.start Demo.directory ∅))).
Proof.
  split; [reflexivity|]. split; [reflexivity|].
  apply (searchProfiles_merges_as_fetchAllProfiles svc EmptyString
           (Demo.start Demo.directory ∅) (Demo.start Demo.directory ∅)
           Demo.directory Demo.directory Demo.directory
           eq_refl eq_refl eq_refl).
Defined.

Lemma fetchAgentProfile_on_demo :
  ProfilesService.getAgentProfile svc "uB" Demo.directory
  = (Fulfilled (Some {| agent_pub_key := "uB"; profile := Demo.bob |}),
     Demo.directory)
  /\ exists s',
       fetchAgentProfile svc "uB" (Demo.start Demo.directory ∅)
       = (Fulfilled tt, {| world := Demo.directory; store := s' |})
       /\ profileOf s' "uB" = Some Demo.bob.
Proof.
  split; [reflexivity|].
  destruct (fetchAgentProfile_writes_entry_on_success svc "uB"
              (Demo.start Demo.directory ∅) _ _ eq_refl)
    as (s' & Hrun & _ & Hread).
  exists s'. split; [exact Hrun | exact Hread].
Defined.

(** Agent uB is never obtained by a search for "A", a rejected
    [createProfile] and a fetch of uA. *)
Lemma profileOf_absent_on_demo :
  ("uB" ∉ obtained_along hash svc
            [ Method (SearchProfiles "A");
              Method (CreateProfile Demo.nameless);
              FetchAgentProfile "uA" ]
            Demo.directory)
  /\ profileOf
       (store (session (serve hash svc)
                 [ Method (SearchProfiles "A");
                   Method (CreateProfile Demo.nameless);
                   FetchAgentProfile "uA" ]
                 {| world := Demo.directory; store := new |}))
       "uB"
     = None.
Proof.
  assert ("uB" ∉ obtained_along hash svc
            [ Method (SearchProfiles "A");
              Method (CreateProfile Demo.nameless);
              FetchAgentProfile "uA" ]
            Demo.directory) as Hnot
    by (apply (bool_decide_unpack _); vm_compute; exact I).
  split; [exact Hnot|].
  exact (proj2 (profileOf_reads_cache_absent_unless_obtained hash svc
                  _ Demo.directory "uB") Hnot).
Defined.

Lemma cached_entry_survives_on_demo :
  "uZ" ∈ dom (profiles (store (Demo.start Demo.directory {[ "uZ" := Demo.bob ]})))
  /\ "uZ" ∈ dom (profiles (store (session (invoke hash svc)
                [ FetchAllProfiles;
                  CreateProfile Demo.nameless;
                  FetchMyProfile ]
                (Demo.start Demo.directory {[ "uZ" := Demo.bob ]})))).
Proof.
  assert ("uZ" ∈ dom (profiles (store
            (Demo.start Demo.directory {[ "uZ" := Demo.bob ]})))) as Hin
    by (apply elem_of_dom; exists Demo.bob; vm_compute; reflexivity).
  split; [exact Hin|].
  apply (cache_entries_are_never_removed hash svc _ "uZ" Hin).
Defined.

Lemma createProfile_keeps_other_entries_on_demo :
  "uZ" <> myAgentPubKey hash svc
  /\ profiles (store (snd (createProfile hash svc Demo.carol
                             (Demo.start [] {[ "uZ" := Demo.bob ]}))))
       !! "uZ"
     = Some Demo.bob.
Proof.
  assert ("uZ" <> myAgentPubKey hash svc) as Hother by discriminate.
  split; [exact Hother|].
  destruct (own_profile_methods_write_own_entry_only hash svc
              (Demo.start [] {[ "uZ" := Demo.bob ]}) "uZ" Hother)
    as [_ Hcreate].
  destruct (Hcreate Demo.carol _ eq_refl) as (_ & _ & Hkeep).
  rewrite Hkeep. vm_compute. reflexivity.
Defined.

End StoreExamples.

Module EditProfileExamples.
Import EditProfile EditProfileSpec.


End EditProfileExamples.

(** * The further properties at work *)
Module MoreStoreExamples.
Import ProfilesStore StoreSpec.
Local Open Scope list_scope.

Abbreviation svc := Demo.profilesService.
Abbreviation hash := Demo.serializeHash.

Lemma knownProfiles_after_first_fetch_on_demo :
  ProfilesService.getAllProfiles svc Demo.two_agents = (Fulfilled Demo.two_agents, Demo.two_agents)
  /\ NoDup (agent_pub_key <$> Demo.two_agents)
  /\ knownProfiles
       (store (snd (fetchAllProfiles svc {| world := Demo.two_agents; store := new |})))
     ≡ₚ Demo.two_agents.
Proof.
  assert (NoDup (agent_pub_key <$> Demo.two_agents)) as Hnodup
    by (apply (bool_decide_unpack _); vm_compute; exact I).
  split; [reflexivity|]. split; [exact Hnodup|].
  exact (knownProfiles_after_first_fetch svc Demo.two_agents Demo.two_agents Demo.two_agents
           eq_refl Hnodup).
Defined.

Lemma search_adds_returned_agents_on_demo :
  is_listing (SearchProfiles "B") = true
  /\ service_call svc (SearchProfiles "B") Demo.directory
     = (Fulfilled
          (Profiles [ {| agent_pub_key := "uB"; profile := Demo.bob |} ]),
        Demo.directory)
  /\ dom (profiles (store (snd (invoke hash svc (SearchProfiles "B")
                                  (Demo.start Demo.directory
                                     {[ "uZ" := Demo.bob ]})))))
     = dom ({[ "uZ" := Demo.bob ]} : gmap string Profile)
       ∪ list_to_set [ "uB" ].
Proof.
  split; [reflexivity|]. split; [reflexivity|].
  exact (proj1 (listing_adds_exactly_returned_agents hash svc
                  (SearchProfiles "B")
                  (Demo.start Demo.directory {[ "uZ" := Demo.bob ]})
                  _ _ eq_refl eq_refl)).
Defined.

Lemma fetchAllProfiles_twice_on_demo :
  ProfilesService.getAllProfiles svc Demo.directory
  = (Fulfilled Demo.directory, Demo.directory)
  /\ fetchAllProfiles svc
       (snd (fetchAllProfiles svc (Demo.start Demo.directory ∅)))
     = (Fulfilled tt,
        {| world := Demo.directory;
           store := store (snd (fetchAllProfiles svc
                                  (Demo.start Demo.directory ∅))) |}).
Proof.
  split; [reflexivity|].
  exact (fetchAllProfiles_again_leaves_store svc
           (Demo.start Demo.directory ∅) Demo.directory
           Demo.directory Demo.directory eq_refl eq_refl).
Defined.

Lemma listings_commute_on_indexed_demo :
  (forall agentId,
     agentId ∈ agent_pub_key <$> fst Demo.split_world ->
     agentId ∉ agent_pub_key <$> snd Demo.split_world)
  /\ store (snd (searchProfiles Demo.indexed "B"
                   (snd (fetchAllProfiles Demo.indexed
                           {| world := Demo.split_world; store := new |}))))
     = store (snd (fetchAllProfiles Demo.indexed
                     (snd (searchProfiles Demo.indexed "B"
                             {| world := Demo.split_world; store := new |})))).
Proof.
  assert (forall agentId,
            agentId ∈ agent_pub_key <$> fst Demo.split_world ->
            agentId ∉ agent_pub_key <$> snd Demo.split_world) as Hdisjoint.
  { intros agentId Hin Hin'. cbn in Hin, Hin'.
    apply list_elem_of_singleton in Hin, Hin'. congruence. }
  split; [exact Hdisjoint|].
  exact (listings_of_different_agents_commute Demo.indexed "B"
           {| world := Demo.split_world; store := new |}
           (fst Demo.split_world) (snd Demo.split_world)
           Demo.split_world Demo.split_world Demo.split_world Demo.split_world
           eq_refl eq_refl eq_refl eq_refl Hdisjoint).
Defined.

Lemma myProfile_after_create_and_fetch_on_demo :
  ProfilesService.createProfile svc Demo.carol Demo.two_agents
  = (Fulfilled tt,
     Demo.two_agents ++ [ {| agent_pub_key := "uAli"; profile := Demo.carol |} ])
  /\ myProfile hash svc
       (store (snd (fetchAllProfiles svc
                      (snd (createProfile hash svc Demo.carol
                              (Demo.start Demo.two_agents ∅))))))
     = Some Demo.carol.
Proof.
  split; [reflexivity|].
  rewrite (myProfile_after_createProfile_then_fetchAllProfiles hash svc
             Demo.carol (Demo.start Demo.two_agents ∅) _ _ _ eq_refl eq_refl).
  vm_compute. reflexivity.
Defined.

End MoreStoreExamples.

Module MoreEditProfileExamples.
Import EditProfile EditProfileSpec.

Lemma short_ids_are_filed_under_undefined :
  hyphen_free "bio" = true
  /\ hyphen_free "field" = true
  /\ property_key (textfieldToFieldId {| id := "bio-field"; value := "Gardener" |})
     = "undefined".
Proof.
  split; [reflexivity|]. split; [reflexivity|].
  exact (proj2 (textfield_without_two_hyphens_is_filed_under_undefined
                  "bio" "field" "Gardener" eq_refl eq_refl)).
Defined.



Lemma hyphen_free_demo_config :
  Forall (fun c => hyphen_free (Config.name c) = true)
    (Config.additionalFields Demo.config).
Proof. repeat constructor. Defined.


Lemma save_of_untouched_form_returns_dana :
  Forall (fun c => hyphen_free (Config.name c) = true)
    (Config.additionalFields Demo.config)
  /\ ("__proto__" ∉ Config.name <$> Config.additionalFields Demo.config)
  /\ exists ev,
       fireSaveProfile (mounted Demo.shown (Some Demo.dana) Demo.config)
       = Some ev
       /\ nickname (detail_profile ev) = nickname Demo.dana
       /\ fields (detail_profile ev) = fields Demo.dana.
Proof.
  assert ("__proto__" ∉ Config.name <$> Config.additionalFields Demo.config)
    as Hproto by (apply (bool_decide_unpack _); vm_compute; exact I).
  split; [exact hyphen_free_demo_config|]. split; [exact Hproto|].
  apply (save_of_untouched_form_returns_profile Demo.shown Demo.dana
           Demo.config hyphen_free_demo_config Hproto).
  - intros k Hin. cbn in Hin.
    apply list_elem_of_In in Hin. cbn in Hin.
    destruct Hin as [<-|[<-|[]]]; eexists; vm_compute; reflexivity.
  - intros k [text Htext].
    destruct (decide (k = "avatar")) as [->|Hne].
    + right. split; [done|]. vm_compute. discriminate.
    + left. cbn.
      destruct (decide (k = "location")) as [->|Hloc]; [by left|].
      destruct (decide (k = "bio")) as [->|Hbio]; [right; by left|].
      exfalso. unfold Demo.dana in Htext. cbn [fields] in Htext.
      rewrite !lookup_insert_ne, lookup_singleton_ne in Htext by done. done.
Defined.


End MoreEditProfileExamples.
